(** * constants.c: the table of ioctl request codes behind [rust_get_constants]

    The C file declares one record type, [constant_t], and one function,
    [rust_get_constants], whose body holds a function-local [static] array
    and returns its address.  The development below embeds

    - the record and the C conversions its initialisers go through,
    - the static array as one block of a small block/offset memory,
    - the accessor as a state-passing function on that memory,
    - the loop a caller runs over the returned pointer, and
    - an interleaving semantics for several threads that use the accessor. *)

From Stdlib Require Import ZArith.
From stdpp Require Import gmap strings list.

(** ** C values *)

(** Conversion of an integer constant expression to [uint64_t]. *)
Definition to_uint64 (z : Z) : Z := (z mod 2 ^ 64)%Z.

(** [typedef struct constant { const char* name; uint64_t value; } constant_t;]
    A [const char*] is either [NULL] or the address of a string literal; the
    literal is identified with its text. *)
Record constant_t := Constant {
  name  : option string;
  value : Z
}.

Global Instance constant_t_eq_dec : EqDecision constant_t.
Proof. solve_decision. Defined.

(** The macros [SIOCGIFFLAGS] and [SIOCSIFFLAGS] are expanded from
    <sys/ioctl.h>, <sys/socket.h> and <net/if.h>.  Those headers belong to
    the compiling platform, so the integer each macro expands to is a
    parameter of the embedding. *)
Record sys_headers := SysHeaders {
  SIOCGIFFLAGS : Z;
  SIOCSIFFLAGS : Z
}.

(** Two platforms, used to run the definitions on concrete numbers:
    Linux (<linux/sockios.h>: 0x8913, 0x8914) and the BSD family
    ([_IOWR('i', 17, struct ifreq)], [_IOW('i', 16, struct ifreq)] with a
    32-byte [struct ifreq]: 0xc0206911, 0x80206910). *)
Definition linux_headers : sys_headers := SysHeaders 0x8913 0x8914.
Definition bsd_headers : sys_headers := SysHeaders 0xc0206911 0x80206910.

(** ** The static array *)

(** [{ NULL, 0 }] *)
Definition sentinel : constant_t := Constant None 0.

(** [static constant_t constants[] = { ... };] in declaration order. *)
Definition constants (H : sys_headers) : list constant_t :=
  [ Constant (Some "SIOCGIFFLAGS") (to_uint64 (SIOCGIFFLAGS H));
    Constant (Some "SIOCSIFFLAGS") (to_uint64 (SIOCSIFFLAGS H));
    sentinel ].

(** ** Memory *)

(** A pointer to [constant_t] is [NULL] or a block together with an element
    index.  Memory maps the live blocks to their element arrays. *)
Inductive pointer :=
  | NULL
  | Ptr (b : positive) (ofs : nat).

Global Instance pointer_eq_dec : EqDecision pointer.
Proof. solve_decision. Defined.

Abbreviation mem := (gmap positive (list constant_t)).

(** The block of the function-local static [constants]. *)
Definition constants_block : positive := 1%positive.

(** An object of static storage duration with a constant initialiser holds
    its value before any code of the program runs. *)
Definition initial_mem (H : sys_headers) : mem :=
  {[ constants_block := constants H ]}.

(** [p + n] *)
Definition ptr_add (p : pointer) (n : nat) : pointer :=
  match p with
  | NULL => NULL
  | Ptr b ofs => Ptr b (ofs + n)
  end.

(** [*p]; [None] is an access outside every live object. *)
Definition load (m : mem) (p : pointer) : option constant_t :=
  match p with
  | NULL => None
  | Ptr b ofs => l ← m !! b; l !! ofs
  end.

(** [*p = e] through the non-const pointer type the accessor returns;
    a store outside every live object leaves memory as it is. *)
Definition store (m : mem) (p : pointer) (e : constant_t) : mem :=
  match p with
  | NULL => m
  | Ptr b ofs =>
      match m !! b with
      | Some l => if decide (ofs < length l) then <[b := <[ofs := e]> l]> m else m
      | None => m
      end
  end.

(** The elements of the array from [p] to the end of its block. *)
Definition array_at (m : mem) (p : pointer) : option (list constant_t) :=
  match p with
  | NULL => None
  | Ptr b ofs => l ← m !! b; if decide (ofs ≤ length l) then Some (drop ofs l) else None
  end.

(** ** The accessor *)

(** [constant_t* rust_get_constants() { static ...; return constants; }]
    The array decays to the address of its first element; nothing is read
    or written. *)
Definition rust_get_constants (m : mem) : pointer * mem :=
  (Ptr constants_block 0, m).

(** Memory after [n] further calls. *)
Definition after_calls (n : nat) (m : mem) : mem :=
  Nat.iter n (λ m, (rust_get_constants m).2) m.

(** ** Readers *)

(** End-of-table tests a caller may apply to an entry:
    [e->name == NULL], [e->name != NULL && *e->name == 0], and their
    disjunction (a name that is null or empty). *)
Definition name_is_null (e : constant_t) : bool :=
  match name e with
  | None => true
  | Some _ => false
  end.

Definition name_is_empty_string (e : constant_t) : bool :=
  match name e with
  | Some s => bool_decide (s = "")
  | None => false
  end.

Definition name_is_empty (e : constant_t) : bool :=
  name_is_null e || name_is_empty_string e.

(** [for (e = p; !stop(e); e++) collect(e);] over the elements of one
    array.  [None]: the loop walked past the last element without the test
    ever firing. *)
Fixpoint scan_until (stop : constant_t → bool) (l : list constant_t)
  : option (list constant_t) :=
  match l with
  | [] => None
  | e :: l' => if stop e then Some [] else (e ::.) <$> scan_until stop l'
  end.

(** The entries a caller collects from pointer [p]. *)
Definition read_table (stop : constant_t → bool) (m : mem) (p : pointer)
  : option (list constant_t) :=
  l ← array_at m p; scan_until stop l.

(** Linear search by name, as a consumer of the table performs it:
    the value of the first entry before the sentinel whose name is [s]. *)
Fixpoint find_constant (s : string) (l : list constant_t) : option Z :=
  match l with
  | [] => None
  | e :: l' =>
      match name e with
      | None => None
      | Some s' => if decide (s' = s) then Some (value e) else find_constant s l'
      end
  end.

(** What the platform's headers define for a macro name. *)
Definition header_value (H : sys_headers) (s : string) : option Z :=
  if decide (s = "SIOCGIFFLAGS") then Some (SIOCGIFFLAGS H)
  else if decide (s = "SIOCSIFFLAGS") then Some (SIOCSIFFLAGS H)
  else None.

(** ** Threads *)

(** What a thread does with the table: [p = rust_get_constants();] into its
    local pointer variable, or [p[i]] read through that variable. *)
Inductive action :=
  | ACall
  | ALoad (i : nat).

Record thread := Thread {
  pending : list action;
  reg : pointer
}.

(** Accesses to shared objects. *)
Inductive access :=
  | Rd (p : pointer)
  | Wr (p : pointer).

Definition is_read (a : access) : bool :=
  match a with
  | Rd _ => true
  | Wr _ => false
  end.

(** What a step lets its thread see: the pointer a call returned, with the
    array it designates at the return, or the element a load produced. *)
Inductive event :=
  | EvCall (p : pointer) (content : option (list constant_t))
  | EvLoad (p : pointer) (v : option constant_t).

Record label := Label {
  tid : nat;
  ev : event;
  footprint : list access
}.

Definition config : Type := list thread * mem.

(** One action of one thread on the shared memory.  The accessor's body
    touches no shared object; an element load is one read. *)
Definition exec (a : action) (rest : list action) (th : thread) (m : mem)
  : thread * mem * event * list access :=
  match a with
  | ACall =>
      let '(p, m') := rust_get_constants m in
      (Thread rest p, m', EvCall p (array_at m' p), [])
  | ALoad i =>
      let p := ptr_add (reg th) i in
      (Thread rest (reg th), m, EvLoad p (load m p), [Rd p])
  end.

(** Thread [t] performs its next action; [None] when there is no such
    thread or it has finished. *)
Definition step_thread (t : nat) (c : config) : option (label * config) :=
  th ← c.1 !! t;
  match pending th with
  | [] => None
  | a :: rest =>
      let '(th', m', e, acc) := exec a rest th c.2 in
      Some (Label t e acc, (<[t := th']> c.1, m'))
  end.

(** Any thread with a pending action may move next; there is no lock, no
    waiting and no scheduler state. *)
Inductive step : config → label → config → Prop :=
  | step_intro c t l c' :
      step_thread t c = Some (l, c') →
      step c l c'.

Inductive steps : config → list label → config → Prop :=
  | steps_nil c : steps c [] c
  | steps_cons c1 l c2 tr c3 :
      step c1 l c2 → steps c2 tr c3 → steps c1 (l :: tr) c3.

(** Run a schedule: thread ids in the order they are given the processor;
    ids that cannot move are skipped. *)
Fixpoint run_schedule (sched : list nat) (c : config) : list label * config :=
  match sched with
  | [] => ([], c)
  | t :: sched' =>
      match step_thread t c with
      | Some (l, c') =>
          let '(tr, c'') := run_schedule sched' c' in (l :: tr, c'')
      | None => run_schedule sched' c
      end
  end.

(** Threads at creation: their program, and a pointer variable not yet
    assigned. *)
Definition spawn (progs : list (list action)) : list thread :=
  (λ prog, Thread prog NULL) <$> progs.

(** What a label must look like in a run over the table of [H]. *)
Definition label_ok (H : sys_headers) (l : label) : Prop :=
  forallb is_read (footprint l) = true ∧
  match ev l with
  | EvCall p content => p = Ptr constants_block 0 ∧ content = Some (constants H)
  | EvLoad p v => v = load (initial_mem H) p
  end.

(** Two threads and one interleaving of them, for running the semantics. *)
Definition two_threads : list (list action) :=
  [[ACall; ALoad 0; ALoad 2]; [ACall; ALoad 1]].

Definition interleaving : list nat := [0; 1; 1; 0; 0].

(** ** Further data for running the definitions *)

(** A platform whose ioctl macros have type [int] and the BSD bit pattern:
    the same 32 bits as [bsd_headers], read as negative numbers. *)
Definition signed_int_headers : sys_headers :=
  SysHeaders (0xc0206911 - 2 ^ 32) (0x80206910 - 2 ^ 32).

(** What thread [th] sees when it runs its remaining actions with no other
    thread in the process. *)
Definition solo (H : sys_headers) (th : thread) : list event :=
  ev <$> (run_schedule (replicate (length (pending th)) 0)
                       ([th], initial_mem H)).1.

(** * Properties *)

(** ** The table on concrete platforms *)

Example linux_table :
  constants linux_headers
  = [ Constant (Some "SIOCGIFFLAGS") 35091;
      Constant (Some "SIOCSIFFLAGS") 35092;
      Constant None 0 ].
Proof. reflexivity. Qed.

Example bsd_table :
  value <$> constants bsd_headers = [3223349521; 2149607696; 0]%Z.
Proof. reflexivity. Qed.

(** A macro expanding to a negative [int] would be stored sign-extended. *)
Example to_uint64_negative : to_uint64 (-1) = 0xffffffffffffffff%Z.
Proof. reflexivity. Qed.

(** ** The accessor and the initial memory *)

Lemma rust_get_constants_mem (m : mem) : (rust_get_constants m).2 = m.
Proof. reflexivity. Qed.

Lemma after_calls_id n (m : mem) : after_calls n m = m.
Proof.
  induction n as [|n IH]; [done|].
  change (after_calls (S n) m) with (rust_get_constants (after_calls n m)).2.
  by rewrite rust_get_constants_mem.
Qed.

Section initial_table.
Context (H : sys_headers).

Lemma array_at_initial :
  array_at (initial_mem H) (Ptr constants_block 0) = Some (constants H).
Proof. unfold array_at, initial_mem. by rewrite lookup_singleton_eq. Qed.

(** The table every call exposes: pointer, memory and array content. *)
Lemma call_after_calls n :
  rust_get_constants (after_calls n (initial_mem H))
    = (Ptr constants_block 0, initial_mem H).
Proof. by rewrite after_calls_id. Qed.

Lemma read_table_initial stop :
  read_table stop (initial_mem H) (Ptr constants_block 0)
    = scan_until stop (constants H).
Proof. unfold read_table. by rewrite array_at_initial. Qed.

Lemma load_initial i :
  load (initial_mem H) (Ptr constants_block i) = constants H !! i.
Proof. unfold load, initial_mem. by rewrite lookup_singleton_eq. Qed.

Lemma ptr_add_constants i j :
  ptr_add (Ptr constants_block i) j = Ptr constants_block (i + j).
Proof. reflexivity. Qed.
End initial_table.

Create Rewrite HintDb table.
#[global] Hint Rewrite after_calls_id call_after_calls array_at_initial
  read_table_initial ptr_add_constants load_initial : table.

(** Name the pointer and the memory a call returns, then normalise. *)
Ltac at_call H :=
  rewrite ?call_after_calls; exists (Ptr constants_block 0), (initial_mem H).

Lemma to_uint64_small z : (0 ≤ z < 2 ^ 64)%Z → to_uint64 z = z.
Proof. intros Hz. unfold to_uint64. by apply Z.mod_small. Qed.

(** Without any assumption on the headers, an entry holds its macro's value
    converted to [uint64_t]. *)
Lemma find_constant_uint64 H :
  find_constant "SIOCGIFFLAGS" (constants H) = Some (to_uint64 (SIOCGIFFLAGS H)) ∧
  find_constant "SIOCSIFFLAGS" (constants H) = Some (to_uint64 (SIOCSIFFLAGS H)).
Proof. done. Qed.

Lemma load_store_eq (m : mem) p e :
  is_Some (load m p) → load (store m p e) p = Some e.
Proof.
  destruct p as [|b ofs]; simpl; intros [old Hold]; [done|].
  destruct (m !! b) as [l|] eqn:Hb; [|done]. simpl in Hold.
  apply lookup_lt_Some in Hold as Hlt.
  rewrite decide_True by done.
  rewrite lookup_insert_eq. simpl.
  by apply list_lookup_insert_eq.
Qed.

Lemma store_out_of_bounds (m : mem) p e :
  load m p = None → store m p e = m.
Proof.
  destruct p as [|b ofs]; simpl; [done|].
  destruct (m !! b) as [l|] eqn:Hb; [|done]. simpl.
  intros Hnone%lookup_ge_None. by rewrite decide_False by lia.
Qed.

Lemma NoDup_fmap_filter_length {A B} `{EqDecision B} (f : A → B) (l : list A) (y : B) :
  NoDup (f <$> l) → length (filter (λ x, f x = y) l) ≤ 1.
Proof.
  induction l as [|x l IH]; simpl; [lia|].
  intros [Hx Hl]%NoDup_cons. specialize (IH Hl).
  rewrite filter_cons. case_decide as Hxy; [|done].
  assert (filter (λ x, f x = y) l = []) as ->; [|simpl; lia].
  destruct (filter (λ x, f x = y) l) as [|z l'] eqn:Hf; [done|].
  assert (z ∈ filter (λ x, f x = y) l) as Hz by (rewrite Hf; left).
  apply list_elem_of_filter in Hz as [Hfz Hz].
  exfalso. apply Hx. rewrite Hxy, <- Hfz.
  apply list_elem_of_fmap. by exists z.
Qed.

(** ** The interleaving semantics *)

Lemma run_schedule_steps sched c :
  steps c (run_schedule sched c).1 (run_schedule sched c).2.
Proof.
  revert c. induction sched as [|t sched IH]; intros c; simpl.
  - constructor.
  - destruct (step_thread t c) as [[l c']|] eqn:Hst; [|apply IH].
    specialize (IH c'). destruct (run_schedule sched c') as [tr c''].
    simpl in *. eapply steps_cons; [by econstructor|done].
Qed.

Lemma step_initial_mem H ths l ths' m' :
  step (ths, initial_mem H) l (ths', m') →
  m' = initial_mem H ∧ label_ok H l.
Proof.
  inversion 1 as [c t l0 c' Hst]; subst.
  unfold step_thread in Hst. simpl in Hst.
  destruct (ths !! t) as [th|]; [|done]. simpl in Hst.
  destruct (pending th) as [|a rest]; [done|].
  destruct a as [|i]; simpl in Hst; injection Hst as <- <- <-.
  - split; [done|]. split; [done|]. simpl. split; [done|].
    apply array_at_initial.
  - split; [done|]. by split.
Qed.

Lemma steps_initial_mem H ths tr ths' m' :
  steps (ths, initial_mem H) tr (ths', m') →
  m' = initial_mem H ∧ Forall (label_ok H) tr.
Proof.
  remember (ths, initial_mem H) as c eqn:Hc.
  remember (ths', m') as c' eqn:Hc'.
  intros Hsteps. revert ths Hc. induction Hsteps as [c|c1 l c2 tr c3 Hstep Hsteps IH];
    intros ths ->.
  - injection Hc' as <- <-. by split.
  - destruct c2 as [ths2 m2].
    apply step_initial_mem in Hstep as [-> Hl].
    destruct (IH Hc' ths2 eq_refl) as [-> Htr].
    split; [done|]. by constructor.
Qed.

Lemma step_enabled (c : config) t th :
  c.1 !! t = Some th → pending th ≠ [] →
  ∃ l c', step c l c' ∧ tid l = t.
Proof.
  intros Ht Hp. destruct (pending th) as [|a rest] eqn:Hpend; [done|].
  destruct (exec a rest th c.2) as [[[th' m'] e] acc] eqn:Hex.
  exists (Label t e acc), (<[t := th']> c.1, m'). split; [|done].
  apply (step_intro c t). unfold step_thread. rewrite Ht. simpl.
  by rewrite Hpend, Hex.
Qed.

Example run_two_threads :
  (run_schedule interleaving (spawn two_threads, initial_mem linux_headers)).1
  = [ Label 0 (EvCall (Ptr 1 0) (Some (constants linux_headers))) [];
      Label 1 (EvCall (Ptr 1 0) (Some (constants linux_headers))) [];
      Label 1 (EvLoad (Ptr 1 1) (Some (Constant (Some "SIOCSIFFLAGS") 0x8914))) [Rd (Ptr 1 1)];
      Label 0 (EvLoad (Ptr 1 0) (Some (Constant (Some "SIOCGIFFLAGS") 0x8913))) [Rd (Ptr 1 0)];
      Label 0 (EvLoad (Ptr 1 2) (Some sentinel)) [Rd (Ptr 1 2)] ].
Proof. reflexivity. Qed.

(** * The specification, claim by claim *)

(** C1: on every call, the array behind the returned pointer is the real
    entries followed by the sentinel [{NULL, 0}] as its last element (so it
    is not empty), and no entry in front of the sentinel has a null or
    empty name. *)
Theorem C1_sentinel_terminated (H : sys_headers) (n : nat) :
  ∃ p m real,
    rust_get_constants (after_calls n (initial_mem H)) = (p, m) ∧
    array_at m p = Some (real ++ [sentinel]) ∧
    real ++ [sentinel] ≠ [] ∧
    last (real ++ [sentinel]) = Some (Constant None 0) ∧
    Forall (λ e, name_is_empty e = false) real.
Proof.
  at_call H. exists (take 2 (constants H)). autorewrite with table.
  repeat (split; [done|]).
  repeat constructor.
Qed.

(** C2: a caller that walks the returned array and stops at the first null
    or empty name collects exactly two entries, ["SIOCGIFFLAGS"] first and
    ["SIOCSIFFLAGS"] second; on a platform whose headers give both macros a
    value that is not zero as a [uint64_t], both collected values are not
    zero; the element after them is the sentinel. *)
Theorem C2_two_real_entries (H : sys_headers) (n : nat) :
  to_uint64 (SIOCGIFFLAGS H) ≠ 0%Z →
  to_uint64 (SIOCSIFFLAGS H) ≠ 0%Z →
  ∃ p m g s,
    rust_get_constants (after_calls n (initial_mem H)) = (p, m) ∧
    read_table name_is_empty m p
      = Some [Constant (Some "SIOCGIFFLAGS") g; Constant (Some "SIOCSIFFLAGS") s] ∧
    g ≠ 0%Z ∧ s ≠ 0%Z ∧
    load m (ptr_add p 2) = Some sentinel.
Proof.
  intros Hg Hs. rewrite call_after_calls.
  exists (Ptr constants_block 0), (initial_mem H).
  exists (to_uint64 (SIOCGIFFLAGS H)), (to_uint64 (SIOCSIFFLAGS H)).
  split; [done|]. rewrite read_table_initial.
  split; [done|]. split; [done|]. split; [done|].
  unfold ptr_add. by rewrite load_initial.
Qed.

Lemma C2_two_real_entries_witness :
  to_uint64 (SIOCGIFFLAGS linux_headers) ≠ 0%Z ∧
  to_uint64 (SIOCSIFFLAGS linux_headers) ≠ 0%Z ∧
  ∃ p m g s,
    rust_get_constants (after_calls 1 (initial_mem linux_headers)) = (p, m) ∧
    read_table name_is_empty m p
      = Some [Constant (Some "SIOCGIFFLAGS") g; Constant (Some "SIOCSIFFLAGS") s] ∧
    g ≠ 0%Z ∧ s ≠ 0%Z ∧
    load m (ptr_add p 2) = Some sentinel.
Proof.
  split; [vm_compute; discriminate|].
  split; [vm_compute; discriminate|].
  apply (C2_two_real_entries linux_headers 1); vm_compute; discriminate.
Defined.

(** C3: where the headers define both macros as values a [uint64_t] can
    hold, every named entry of the returned table carries the value the
    headers define for its name: searching ["SIOCGIFFLAGS"] gives the
    platform's [SIOCGIFFLAGS], searching ["SIOCSIFFLAGS"] gives the
    platform's [SIOCSIFFLAGS]. *)
Theorem C3_values_from_headers (H : sys_headers) (n : nat) :
  (0 ≤ SIOCGIFFLAGS H < 2 ^ 64)%Z →
  (0 ≤ SIOCSIFFLAGS H < 2 ^ 64)%Z →
  ∃ p m l real,
    rust_get_constants (after_calls n (initial_mem H)) = (p, m) ∧
    array_at m p = Some l ∧
    read_table name_is_null m p = Some real ∧
    Forall (λ e, name e ≫= header_value H = Some (value e)) real ∧
    find_constant "SIOCGIFFLAGS" l = Some (SIOCGIFFLAGS H) ∧
    find_constant "SIOCSIFFLAGS" l = Some (SIOCSIFFLAGS H).
Proof.
  intros Hg Hs. rewrite call_after_calls.
  exists (Ptr constants_block 0), (initial_mem H), (constants H).
  exists (take 2 (constants H)).
  split; [done|]. split; [apply array_at_initial|].
  split; [by rewrite read_table_initial|].
  destruct (find_constant_uint64 H) as [Eg Es].
  rewrite Eg, Es, !to_uint64_small by done.
  split; [|done].
  repeat constructor; simpl; by rewrite to_uint64_small.
Qed.

Lemma C3_values_from_headers_witness :
  (0 ≤ SIOCGIFFLAGS bsd_headers < 2 ^ 64)%Z ∧
  (0 ≤ SIOCSIFFLAGS bsd_headers < 2 ^ 64)%Z ∧
  ∃ p m l real,
    rust_get_constants (after_calls 2 (initial_mem bsd_headers)) = (p, m) ∧
    array_at m p = Some l ∧
    read_table name_is_null m p = Some real ∧
    Forall (λ e, name e ≫= header_value bsd_headers = Some (value e)) real ∧
    find_constant "SIOCGIFFLAGS" l = Some (SIOCGIFFLAGS bsd_headers) ∧
    find_constant "SIOCSIFFLAGS" l = Some (SIOCSIFFLAGS bsd_headers).
Proof.
  split; [simpl; lia|]. split; [simpl; lia|].
  apply (C3_values_from_headers bsd_headers 2); simpl; lia.
Defined.

(** C4: any two calls made in one process, the [i]-th and the [j]-th, expose
    arrays of identical content: the same number of entries, the same
    names and the same values in the same order. *)
Theorem C4_idempotent (H : sys_headers) (i j : nat) :
  ∃ p1 m1 p2 m2 l1 l2,
    rust_get_constants (after_calls i (initial_mem H)) = (p1, m1) ∧
    rust_get_constants (after_calls j (initial_mem H)) = (p2, m2) ∧
    array_at m1 p1 = Some l1 ∧
    array_at m2 p2 = Some l2 ∧
    l1 = l2 ∧
    length l1 = length l2 ∧
    name <$> l1 = name <$> l2 ∧
    value <$> l1 = value <$> l2 ∧
    read_table name_is_null m1 p1 = read_table name_is_null m2 p2.
Proof.
  at_call H. at_call H. exists (constants H), (constants H).
  by autorewrite with table.
Qed.

(** C5: the accessor has no argument besides the process memory it runs in,
    and its result does not depend on that memory; every call returns a
    pointer that is not [NULL], that points at a live element, and from
    which the scan for the null name terminates inside the array. *)
Theorem C5_cannot_fail (H : sys_headers) (n : nat) :
  (∀ m m' : mem, (rust_get_constants m).1 = (rust_get_constants m').1) ∧
  ∃ p m real,
    rust_get_constants (after_calls n (initial_mem H)) = (p, m) ∧
    p ≠ NULL ∧
    is_Some (load m p) ∧
    read_table name_is_null m p = Some real.
Proof.
  split; [done|].
  at_call H. exists (take 2 (constants H)). autorewrite with table.
  split; [done|]. split; [done|]. split; [by eexists|done].
Qed.

(** C6: a call leaves every memory exactly as it found it; after any number
    of calls each element of the table still holds the name and the value
    of the compile-time initialiser; and however the calls and element
    reads of any threads are scheduled, memory at the end is the memory
    the process started with. *)
Theorem C6_no_side_effects (H : sys_headers) (n i : nat)
    (sched : list nat) (progs : list (list action)) :
  (∀ m : mem, (rust_get_constants m).2 = m) ∧
  after_calls n (initial_mem H) = initial_mem H ∧
  load (after_calls n (initial_mem H)) (Ptr constants_block i) = constants H !! i ∧
  name <$> load (after_calls n (initial_mem H)) (Ptr constants_block i)
    = name <$> constants H !! i ∧
  value <$> load (after_calls n (initial_mem H)) (Ptr constants_block i)
    = value <$> constants H !! i ∧
  (run_schedule sched (spawn progs, initial_mem H)).2.2 = initial_mem H.
Proof.
  rewrite after_calls_id, load_initial.
  repeat (split; [done|]).
  pose proof (run_schedule_steps sched (spawn progs, initial_mem H)) as Hrun.
  destruct (run_schedule sched (spawn progs, initial_mem H)) as [tr [ths m]].
  by apply steps_initial_mem in Hrun as [-> _].
Qed.

(** C7: let any number of threads, each running any sequence of accessor
    calls and element reads, be interleaved in any order, with no lock
    anywhere in the semantics.  Then memory at the end is the initial
    memory; no step writes a shared object, so no two accesses conflict;
    every call, in whichever thread and at whichever point of the
    interleaving, returns the same pointer with the same array content,
    and every read sees the initial element; and a thread that has an
    action left can always take its step, whatever the other threads are
    doing. *)
Theorem C7_concurrent_calls (H : sys_headers) (progs : list (list action))
    (tr : list label) (ths : list thread) (m : mem) :
  steps (spawn progs, initial_mem H) tr (ths, m) →
  m = initial_mem H ∧
  Forall (λ l, forallb is_read (footprint l) = true) tr ∧
  Forall (λ l, match ev l with
               | EvCall p content =>
                   p = Ptr constants_block 0 ∧ content = Some (constants H)
               | EvLoad p v => v = load (initial_mem H) p
               end) tr ∧
  (∀ t th, ths !! t = Some th → pending th ≠ [] →
           ∃ l c', step (ths, m) l c' ∧ tid l = t).
Proof.
  intros Hsteps. apply steps_initial_mem in Hsteps as [-> Htr].
  split; [done|].
  split; [eapply Forall_impl; [exact Htr|]; by intros l [? ?]|].
  split; [eapply Forall_impl; [exact Htr|]; by intros l [? ?]|].
  intros t th Ht Hp. by apply (step_enabled (ths, initial_mem H) t th).
Qed.

Lemma C7_concurrent_calls_witness :
  let c0 := (spawn two_threads, initial_mem linux_headers) in
  let r := run_schedule interleaving c0 in
  steps c0 r.1 r.2 ∧
  (r.2.2 = initial_mem linux_headers ∧
   Forall (λ l, forallb is_read (footprint l) = true) r.1 ∧
   Forall (λ l, match ev l with
                | EvCall p content =>
                    p = Ptr constants_block 0 ∧
                    content = Some (constants linux_headers)
                | EvLoad p v => v = load (initial_mem linux_headers) p
                end) r.1 ∧
   (∀ t th, r.2.1 !! t = Some th → pending th ≠ [] →
            ∃ l c', step (r.2.1, r.2.2) l c' ∧ tid l = t)).
Proof.
  intros c0 r.
  assert (steps c0 r.1 r.2) as Hsteps.
  { subst r c0.
    eapply steps_cons; [apply (step_intro _ 0); reflexivity|].
    eapply steps_cons; [apply (step_intro _ 1); reflexivity|].
    eapply steps_cons; [apply (step_intro _ 1); reflexivity|].
    eapply steps_cons; [apply (step_intro _ 0); reflexivity|].
    eapply steps_cons; [apply (step_intro _ 0); reflexivity|].
    apply steps_nil. }
  split; [exact Hsteps|].
  apply (C7_concurrent_calls linux_headers two_threads r.1 r.2.1 r.2.2).
  destruct r as [tr [ths m]]. exact Hsteps.
Defined.

(** C8: every call returns one and the same pointer, the address of element
    0 of the static block, whatever the memory; a call creates no block;
    an element stored through the pointer of one call is the element read
    through the pointer of another call, so the two do not point at
    copies. *)
Theorem C8_same_pointer (H : sys_headers) (i j k : nat) (e : constant_t) :
  (∀ m m' : mem,
     (rust_get_constants m).1 = Ptr constants_block 0 ∧
     (rust_get_constants m).1 = (rust_get_constants m').1 ∧
     dom (rust_get_constants m).2 = dom m) ∧
  ∃ p1 m1 p2 m2,
    rust_get_constants (after_calls i (initial_mem H)) = (p1, m1) ∧
    rust_get_constants (after_calls j m1) = (p2, m2) ∧
    p1 = p2 ∧
    load (store m2 (ptr_add p1 k) e) (ptr_add p2 k)
      = if decide (k < 3) then Some e else None.
Proof.
  split; [done|]. rewrite call_after_calls.
  exists (Ptr constants_block 0), (initial_mem H).
  exists (Ptr constants_block 0), (initial_mem H).
  split; [done|]. split; [by rewrite after_calls_id|]. split; [done|].
  change (ptr_add (Ptr constants_block 0) k) with (Ptr constants_block k).
  case_decide as Hk.
  - apply load_store_eq. rewrite load_initial.
    apply lookup_lt_is_Some. simpl. lia.
  - rewrite store_out_of_bounds; rewrite load_initial;
      apply lookup_ge_None; simpl; lia.
Qed.

(** C9: the name of the terminating entry is [NULL] and not the empty
    string; no element of the array has the empty string as its name, so a
    caller whose end test is "the name is the empty string" walks over the
    whole array without the test firing, while the null test stops at the
    sentinel. *)
Theorem C9_sentinel_is_null (H : sys_headers) (n : nat) :
  ∃ p m l,
    rust_get_constants (after_calls n (initial_mem H)) = (p, m) ∧
    array_at m p = Some l ∧
    name <$> last l = Some None ∧
    name <$> last l ≠ Some (Some "") ∧
    Forall (λ e, name_is_empty_string e = false) l ∧
    read_table name_is_empty_string m p = None ∧
    is_Some (read_table name_is_null m p).
Proof.
  at_call H. exists (constants H). autorewrite with table.
  split; [done|]. split; [done|]. split; [done|]. split; [done|].
  split; [repeat constructor|].
  split; [done|]. by eexists.
Qed.

(** C10: the names of the entries in front of the sentinel are pairwise
    distinct, so at most one entry carries any given name. *)
Theorem C10_names_distinct (H : sys_headers) (n : nat) (s : string) :
  ∃ p m real,
    rust_get_constants (after_calls n (initial_mem H)) = (p, m) ∧
    read_table name_is_null m p = Some real ∧
    NoDup (name <$> real) ∧
    length (filter (λ e, name e = Some s) real) ≤ 1.
Proof.
  at_call H. exists (take 2 (constants H)). autorewrite with table.
  split; [done|]. split; [done|].
  assert (NoDup (name <$> take 2 (constants H))) as Hnd.
  { simpl. apply NoDup_cons. split; [|apply NoDup_singleton].
    rewrite list_elem_of_singleton. discriminate. }
  split; [done|]. by apply NoDup_fmap_filter_length.
Qed.

(** * Further properties of the table *)


Lemma to_uint64_negative_int z :
  (- 2 ^ 63 ≤ z < 0)%Z → to_uint64 z = (z + 2 ^ 64)%Z.
Proof.
  intros Hz. unfold to_uint64.
  symmetry. apply (Z.mod_unique_pos z (2 ^ 64) (-1)); lia.
Qed.

Lemma find_constant_table H s :
  find_constant s (constants H) = to_uint64 <$> header_value H s.
Proof.
  unfold header_value, constants. simpl.
  destruct (decide (s = "SIOCGIFFLAGS")) as [->|Hg].
  - by rewrite decide_True.
  - rewrite (decide_False (P := "SIOCGIFFLAGS" = s)) by congruence.
    destruct (decide (s = "SIOCSIFFLAGS")) as [->|Hs].
    + by rewrite decide_True.
    + by rewrite (decide_False (P := "SIOCSIFFLAGS" = s)) by congruence.
Qed.


(** X2: on a platform that defines a listed macro as a negative number (an
    [int] with the top bit set), the table does not hold that number: the
    entry found under the macro's name holds it plus 2^64, the
    sign-extended bit pattern. *)
Theorem X2_negative_macro_is_sign_extended
    (H : sys_headers) (n : nat) (s : string) (v : Z) :
  header_value H s = Some v →
  (- 2 ^ 63 ≤ v < 0)%Z →
  ∃ p m l,
    rust_get_constants (after_calls n (initial_mem H)) = (p, m) ∧
    array_at m p = Some l ∧
    find_constant s l = Some (v + 2 ^ 64)%Z ∧
    find_constant s l ≠ Some v.
Proof.
  intros Hs Hv. at_call H. exists (constants H). autorewrite with table.
  split; [done|]. split; [done|].
  rewrite find_constant_table, Hs. simpl.
  rewrite to_uint64_negative_int by done.
  split; [done|]. intros [= Heq]. lia.
Qed.

Lemma X2_negative_macro_is_sign_extended_witness :
  header_value signed_int_headers "SIOCGIFFLAGS" = Some (-1071617775)%Z ∧
  (- 2 ^ 63 ≤ -1071617775 < 0)%Z ∧
  ∃ p m l,
    rust_get_constants (after_calls 0 (initial_mem signed_int_headers)) = (p, m) ∧
    array_at m p = Some l ∧
    find_constant "SIOCGIFFLAGS" l = Some (-1071617775 + 2 ^ 64)%Z ∧
    find_constant "SIOCGIFFLAGS" l ≠ Some (-1071617775)%Z.
Proof.
  split; [reflexivity|]. split; [lia|].
  apply (X2_negative_macro_is_sign_extended signed_int_headers 0);
    [reflexivity|lia].
Defined.


(** X4: the array has exactly three elements: [p[i]] lies inside it exactly
    for [i < 3], and the element with the null name sits at index 2 and
    nowhere else, so nothing readable follows the sentinel. *)
Theorem X4_array_extent (H : sys_headers) (n i : nat) :
  ∃ p m,
    rust_get_constants (after_calls n (initial_mem H)) = (p, m) ∧
    bool_decide (is_Some (load m (ptr_add p i))) = bool_decide (i < 3) ∧
    bool_decide (name <$> load m (ptr_add p i) = Some None) = bool_decide (i = 2) ∧
    array_at m (ptr_add p 3) = Some [] ∧
    array_at m (ptr_add p (4 + i)) = None.
Proof.
  at_call H. autorewrite with table.
  split; [done|].
  destruct i as [|[|[|i]]]; simpl; [done..|].
  split; [done|]. split; [done|].
  unfold initial_mem. rewrite lookup_singleton_eq. simpl.
  by split.
Qed.

Lemma store_initial H k e :
  k < 3 →
  store (initial_mem H) (Ptr constants_block k) e
    = {[ constants_block := <[k := e]> (constants H) ]}.
Proof.
  intros Hk. unfold store, initial_mem. rewrite lookup_singleton_eq.
  rewrite decide_True by (simpl; lia). apply insert_singleton_eq.
Qed.

(** X5: the accessor hands out a pointer to non-const elements and never
    restores the array.  Once a caller has stored an entry with a non-null
    name over the sentinel, every later call still returns the same
    pointer, the stored entry is what sits at index 2, and a scan for the
    null name runs off the end of the array. *)
Theorem X5_overwritten_sentinel (H : sys_headers) (n : nat) (e : constant_t) :
  name_is_null e = false →
  ∃ p m p' m',
    rust_get_constants (initial_mem H) = (p, m) ∧
    rust_get_constants (after_calls n (store m (ptr_add p 2) e)) = (p', m') ∧
    p' = p ∧
    load m' (ptr_add p' 2) = Some e ∧
    read_table name_is_null m' p' = None.
Proof.
  intros He.
  exists (Ptr constants_block 0), (initial_mem H).
  exists (Ptr constants_block 0),
    ({[ constants_block := <[2 := e]> (constants H) ]} : mem).
  split; [done|].
  rewrite after_calls_id, ptr_add_constants, store_initial by lia.
  split; [done|]. split; [done|].
  unfold read_table, array_at, load, ptr_add.
  rewrite lookup_singleton_eq. simpl.
  split; [done|]. by rewrite He.
Qed.

Lemma X5_overwritten_sentinel_witness :
  name_is_null (Constant (Some "SIOCGIFADDR") 0x8915) = false ∧
  ∃ p m p' m',
    rust_get_constants (initial_mem linux_headers) = (p, m) ∧
    rust_get_constants
      (after_calls 3 (store m (ptr_add p 2) (Constant (Some "SIOCGIFADDR") 0x8915)))
      = (p', m') ∧
    p' = p ∧
    load m' (ptr_add p' 2) = Some (Constant (Some "SIOCGIFADDR") 0x8915) ∧
    read_table name_is_null m' p' = None.
Proof.
  split; [reflexivity|].
  apply (X5_overwritten_sentinel linux_headers 3
           (Constant (Some "SIOCGIFADDR") 0x8915)).
  reflexivity.
Defined.

Lemma solo_finished H th : pending th = [] → solo H th = [].
Proof. intros Hp. unfold solo. by rewrite Hp. Qed.

(** One action taken on the initial memory: it is the head of what the
    thread sees alone, and the memory stays the initial one. *)
Lemma solo_step H th a rest th' m' e acc :
  pending th = a :: rest →
  exec a rest th (initial_mem H) = (th', m', e, acc) →
  m' = initial_mem H ∧ solo H th = e :: solo H th'.
Proof.
  intros Hp Hex. unfold solo. rewrite Hp. simpl length. rewrite replicate_S.
  cbn [run_schedule]. unfold step_thread. simpl. rewrite Hp, Hex.
  assert (m' = initial_mem H ∧ pending th' = rest) as [-> Hrest].
  { destruct a; simpl in Hex; by injection Hex as <- <- _ _. }
  split; [done|]. rewrite Hrest. simpl.
  by destruct (run_schedule (replicate (length rest) 0) ([th'], initial_mem H)).
Qed.

Lemma steps_solo H ths tr ths' m' :
  steps (ths, initial_mem H) tr (ths', m') →
  ∀ t th, ths !! t = Some th →
    ∃ th', ths' !! t = Some th' ∧
           (ev <$> filter (λ l, tid l = t) tr) ++ solo H th' = solo H th.
Proof.
  remember (ths, initial_mem H) as c eqn:Hc.
  remember (ths', m') as c' eqn:Hc'.
  intros Hsteps. revert ths Hc.
  induction Hsteps as [c|c1 l c2 tr c3 Hstep Hsteps IH]; intros ths -> t th Ht.
  - injection Hc' as <- <-. by exists th.
  - inversion Hstep as [c t0 l0 c0 Hst]; subst.
    unfold step_thread in Hst. simpl in Hst.
    destruct (ths !! t0) as [th0|] eqn:Ht0; [|done]. simpl in Hst.
    destruct (pending th0) as [|a rest] eqn:Hp0; [done|].
    destruct (exec a rest th0 (initial_mem H)) as [[[th0' m2] e] acc] eqn:Hex.
    injection Hst as <- <-.
    destruct (solo_step H th0 a rest th0' m2 e acc Hp0 Hex) as [-> Hsolo].
    destruct (decide (t0 = t)) as [->|Hne].
    + assert (th0 = th) as -> by congruence.
      destruct (IH eq_refl (<[t := th0']> ths) eq_refl t th0') as (th' & Ht' & Heq).
      { apply list_lookup_insert_eq. by eapply lookup_lt_Some. }
      exists th'. split; [done|].
      rewrite filter_cons_True by done.
      by rewrite fmap_cons, <- app_comm_cons, Heq, Hsolo.
    + destruct (IH eq_refl (<[t0 := th0']> ths) eq_refl t th) as (th' & Ht' & Heq).
      { by rewrite list_lookup_insert_ne. }
      exists th'. split; [done|].
      by rewrite filter_cons_False by done.
Qed.

(** X6: what a thread sees does not depend on the other threads or on the
    schedule.  In any interleaved execution, the events of thread [t] so
    far, followed by what [t] would see running its remaining actions
    alone, are what [t] would have seen running its whole program alone;
    so its events so far are a prefix of the solo run, and all of it once
    [t] has finished. *)
Theorem X6_schedule_independent (H : sys_headers) (progs : list (list action))
    (tr : list label) (ths : list thread) (m : mem) (t : nat) (prog : list action) :
  steps (spawn progs, initial_mem H) tr (ths, m) →
  progs !! t = Some prog →
  ∃ th,
    ths !! t = Some th ∧
    (ev <$> filter (λ l, tid l = t) tr) ++ solo H th = solo H (Thread prog NULL) ∧
    (ev <$> filter (λ l, tid l = t) tr) `prefix_of` solo H (Thread prog NULL) ∧
    (pending th = [] →
     ev <$> filter (λ l, tid l = t) tr = solo H (Thread prog NULL)).
Proof.
  intros Hsteps Hprog.
  destruct (steps_solo H _ _ _ _ Hsteps t (Thread prog NULL)) as (th & Ht & Heq).
  { unfold spawn. by rewrite list_lookup_fmap, Hprog. }
  exists th. split; [done|]. split; [done|].
  split; [rewrite <- Heq; by apply prefix_app_r|].
  intros Hfin. by rewrite <- Heq, (solo_finished H th Hfin), app_nil_r.
Qed.

Lemma X6_schedule_independent_witness :
  let c0 := (spawn two_threads, initial_mem linux_headers) in
  let r := run_schedule interleaving c0 in
  steps c0 r.1 r.2 ∧
  two_threads !! 0 = Some [ACall; ALoad 0; ALoad 2] ∧
  ∃ th,
    r.2.1 !! 0 = Some th ∧
    (ev <$> filter (λ l, tid l = 0) r.1) ++ solo linux_headers th
      = solo linux_headers (Thread [ACall; ALoad 0; ALoad 2] NULL) ∧
    (ev <$> filter (λ l, tid l = 0) r.1)
      `prefix_of` solo linux_headers (Thread [ACall; ALoad 0; ALoad 2] NULL) ∧
    (pending th = [] →
     ev <$> filter (λ l, tid l = 0) r.1
       = solo linux_headers (Thread [ACall; ALoad 0; ALoad 2] NULL)).
Proof.
  intros c0 r.
  assert (steps c0 r.1 r.2) as Hsteps.
  { subst r c0.
    eapply steps_cons; [apply (step_intro _ 0); reflexivity|].
    eapply steps_cons; [apply (step_intro _ 1); reflexivity|].
    eapply steps_cons; [apply (step_intro _ 1); reflexivity|].
    eapply steps_cons; [apply (step_intro _ 0); reflexivity|].
    eapply steps_cons; [apply (step_intro _ 0); reflexivity|].
    apply steps_nil. }
  split; [exact Hsteps|]. split; [reflexivity|].
  apply (X6_schedule_independent linux_headers two_threads r.1 r.2.1 r.2.2 0
           [ACall; ALoad 0; ALoad 2]); [|reflexivity].
  destruct r as [tr [ths m]]. exact Hsteps.
Defined.
